(** * One-step ODE integrators: forward Euler and Improved Euler (Heun)

    A shallow embedding of [solver::stepper_euler]
    (include/solver/stepper_euler.hpp) and of
    [chainsaw::stepper_improved_euler] (stepper_improved_euler.hpp).

    Both classes are templates over a state container [State] and a scalar
    [Time].  A state vector is a [list] of values; the arithmetic the
    templates need is collected in the class [Numeric].  The member functions
    take their arguments by reference and mutate them in place, so they are
    modelled as computations over a [world]: the stepper object itself, the
    state objects owned by the caller (by identity) and the log of the
    invocations of the system callable. Undefined behaviour (an out-of-range
    access on mismatched lengths) is the failure of the computation. *)

From Stdlib Require Import NArith QArith Floats Lia Lqa.
From stdpp Require Import base option list gmap strings.

Set Warnings "-inexact-float".
Set Default Proof Using "Type*".

(** ** The arithmetic interface of the template parameters *)

(** [T] is [Time], [V] is [State::value_type].  The operations are the ones
    the two headers apply to them; no algebraic law is assumed, so every
    result below also holds of floating-point arithmetic. *)
Class Numeric (T V : Type) := {
  lit_one : T;              (* the literal [1.] *)
  lit_half : T;             (* the literal [.5] *)
  t_add : T → T → T;        (* [t + dt] *)
  t_mul : T → T → T;        (* [dt * .5] *)
  scale : T → V → V;        (* coefficient [*] element *)
  v_add : V → V → V;        (* element [+] element *)
  v_init : V                (* a value-initialised element, [value_type()] *)
}.

(** What the headers ask of the container type [State]. *)
Class StateTraits := {
  has_resize : bool;        (* [chainsaw::detail::has_resize<State>::value] *)
  init_size : nat           (* the length of a default-constructed [State()] *)
}.

(** [std::vector]: resizable, default-constructed empty. *)
Definition vector_traits : StateTraits :=
  {| has_resize := true; init_size := 0 |}.

(** [std::array<value_type, n>]: no [resize], always [n] elements. *)
Definition array_traits (n : nat) : StateTraits :=
  {| has_resize := false; init_size := n |}.

(** ** The iterator algebra *)

Module it_algebra.
Section Algebra.
Context {T V : Type} {num : Numeric T V}.

(** Modelled from the spec: it_algebra.hpp ([it_algebra::increment]) is not
    among the sources.  "For every index i, x[i] += dt * dxdt[i].
    Precondition: equal lengths."  Outside the precondition the range
    [x.begin() .. x.end()] runs past the other sequence; that is [None]. *)
Definition increment (x dxdt : list V) (dt : T) : option (list V) :=
  if decide (length dxdt = length x)
  then Some (zip_with (λ xi di, v_add xi (scale dt di)) x dxdt)
  else None.

(** Modelled from the spec: it_algebra.hpp ([scale_two_sum]) is not among
    the sources.  "For every index i, dest[i] = coeffA*a[i] + coeffB*b[i]",
    over equal-length sequences; [dest] only fixes the range. *)
Definition scale_two_sum (dest : list V) (coeffA : T) (a : list V)
    (coeffB : T) (b : list V) : option (list V) :=
  if decide (length a = length dest ∧ length b = length dest)
  then Some (zip_with (λ ai bi, v_add (scale coeffA ai) (scale coeffB bi)) a b)
  else None.

(** Modelled from the spec: it_algebra.hpp ([scale_two_sum_accumulate]) is
    not among the sources.  "For every index i,
    dest[i] += coeffA*a[i] + coeffB*b[i]": the two scaled terms are summed
    first and the sum is then added to [dest[i]]. *)
Definition scale_two_sum_accumulate (dest : list V) (coeffA : T) (a : list V)
    (coeffB : T) (b : list V) : option (list V) :=
  if decide (length a = length dest ∧ length b = length dest)
  then Some (zip_with v_add dest
               (zip_with (λ ai bi, v_add (scale coeffA ai) (scale coeffB bi)) a b))
  else None.
End Algebra.
End it_algebra.

(** ** Worlds and computations *)

Section World.
Context {T V : Type}.

(** The system callable, invoked as [system(state_in, derivative_out, time)]:
    from the input state, the contents of the output buffer before the call
    and the time, the contents of the output buffer after the call.  As its
    contract has it, the callable writes to the output buffer only and keeps
    no state between calls. *)
Definition System : Type := list V → list V → T → list V.

(** [S] is the class of the stepper the member function is called on. *)
Record world (S : Type) := World {
  this : S;
  objs : gmap nat (list V);
  calls : list (list V * T)
}.
Global Arguments World {S} _ _ _.
Global Arguments this {S} _.
Global Arguments objs {S} _.
Global Arguments calls {S} _.

(** Computations: state passing over the world, with failure. *)
Definition M (S A : Type) : Type := world S → option (A * world S).

Global Instance M_ret S : MRet (M S) := λ A a w, Some (a, w).
Global Instance M_bind S : MBind (M S) := λ A B f m w,
  match m w with
  | Some (a, w') => f a w'
  | None => None
  end.

(** A primitive whose precondition fails makes the computation fail. *)
Definition lift {S A} (o : option A) : M S A := λ w,
  match o with
  | Some a => Some (a, w)
  | None => None
  end.

(** Reading and writing through a [State &]. *)
Definition load {S} (x : nat) : M S (list V) := λ w, lift (objs w !! x) w.
Definition store {S} (x : nat) (v : list V) : M S unit := λ w,
  Some ((), World (this w) (<[x := v]> (objs w)) (calls w)).

(** Reading and updating the members of [*this]. *)
Definition get_this {S} : M S S := λ w, Some (this w, w).
Definition set_this {S} (s : S) : M S unit := λ w,
  Some ((), World s (objs w) (calls w)).

(** One invocation [system(x, out, t)]: logged, and its output returned
    for the caller to put into the buffer it passed. *)
Definition invoke {S} (system : System) (x out : list V) (t : T) : M S (list V) :=
  λ w, Some (system x out t, World (this w) (objs w) (calls w ++ [(x, t)])).

(** The effect of a computation, when it has one. *)
Definition exec {S A} (m : M S A) (w : world S) : option (world S) :=
  snd <$> m w.
End World.

Arguments world : clear implicits.
Arguments M : clear implicits.
Arguments System : clear implicits.

(** The system contract of the spec: called with an output buffer as long as
    the input state, the callable leaves it that long. *)
Definition keeps_size {T V} (system : System T V) : Prop :=
  ∀ x out t, length out = length x → length (system x out t) = length x.

(** The callable is a function of the state and the time only: what was in
    the output buffer before the call does not matter. *)
Definition overwrites {T V} (system : System T V) : Prop :=
  ∀ x out out' t, length out = length x → length out' = length x →
    system x out t = system x out' t.

(** ** The forward Euler stepper *)

Module solver.
Section Stepper.
Context {T V : Type} {num : Numeric T V} {traits : StateTraits}.

Record stepper_euler := Stepper { m_dxdt : list V }.

Local Abbreviation Mthis := (M T V stepper_euler).

(** [stepper_euler() : m_dxdt()] *)
Definition ctor : stepper_euler := Stepper (replicate init_size v_init).

(** [order_type_t] is [unsigned short]. *)
Definition order_step (s : stepper_euler) : N := 1.

(** The [const State &dxdt] of the five-argument overload: an object of
    the caller, or the stepper's own buffer (as the four-argument overload
    passes it). *)
Inductive dxdt_ref := ByObj (k : nat) | ByMember.

Definition load_dxdt (d : dxdt_ref) : Mthis (list V) :=
  match d with
  | ByObj k => load k
  | ByMember => s ← get_this; mret (m_dxdt s)
  end.

(** The value the reference [dxdt] denotes in a world. *)
Definition deref (d : dxdt_ref) (w : world T V stepper_euler) : option (list V) :=
  fst <$> load_dxdt d w.

(** [do_step(system, x, dxdt, t, dt)]: one step with the knowledge of
    [dxdt(t)].  [system] and [t] are not used by the body. *)
Definition do_step_dxdt (system : System T V) (x : nat) (dxdt : dxdt_ref)
    (t dt : T) : Mthis unit :=
  xv ← load x;
  dv ← load_dxdt dxdt;
  xv' ← lift (it_algebra.increment xv dv dt);
  store x xv'.

(** [do_step(system, x, t, dt)] *)
Definition do_step (system : System T V) (x : nat) (t dt : T) : Mthis unit :=
  xv ← load x;
  s ← get_this;
  d ← invoke system xv (m_dxdt s) t;
  set_this (Stepper d);;
  do_step_dxdt system x ByMember t dt.
End Stepper.
End solver.

(** ** The Improved Euler (Heun) stepper *)

Module chainsaw.

(** [m_steps] is an [unsigned long]: 64 bits in the LP64 data model, and
    [++] wraps around. *)
Definition ULONG_MODULUS : N := 2 ^ 64.
Definition incr (n : N) : N := ((n + 1) mod ULONG_MODULUS)%N.

Section Stepper.
Context {T V : Type} {num : Numeric T V} {traits : StateTraits}.

Record stepper_improved_euler := Stepper {
  m_dxdt1 : list V;
  m_dxdt2 : list V;
  m_x : list V;
  m_steps : N
}.

Local Abbreviation Mthis := (M T V stepper_improved_euler).

(** Assignments to one member. *)
Definition with_dxdt1 (v : list V) (s : stepper_improved_euler) :=
  Stepper v (m_dxdt2 s) (m_x s) (m_steps s).
Definition with_dxdt2 (v : list V) (s : stepper_improved_euler) :=
  Stepper (m_dxdt1 s) v (m_x s) (m_steps s).
Definition with_x (v : list V) (s : stepper_improved_euler) :=
  Stepper (m_dxdt1 s) (m_dxdt2 s) v (m_steps s).
Definition with_steps (n : N) (s : stepper_improved_euler) :=
  Stepper (m_dxdt1 s) (m_dxdt2 s) (m_x s) n.

(** [stepper_improved_euler() : m_dxdt1(), m_dxdt2(), m_x(), m_steps()] *)
Definition ctor : stepper_improved_euler :=
  Stepper (replicate init_size v_init) (replicate init_size v_init)
          (replicate init_size v_init) 0.

(** [order_type] is [unsigned short]. *)
Definition order_step (s : stepper_improved_euler) : N := 1.

(** [steps()] *)
Definition steps (s : stepper_improved_euler) : N := m_steps s.

(** [adjust_size(reference)]; [State::resize(n)] keeps the first [n] elements
    and pads with value-initialised ones. *)
Definition adjust_size (reference : nat) : Mthis unit :=
  r ← load reference;
  if has_resize then
    s ← get_this; set_this (with_dxdt1 (resize (length r) v_init (m_dxdt1 s)) s);;
    s ← get_this; set_this (with_dxdt2 (resize (length r) v_init (m_dxdt2 s)) s);;
    s ← get_this; set_this (with_x (resize (length r) v_init (m_x s)) s)
  else mret ().

(** [do_step(system, x, t, dt)] *)
Definition do_step (system : System T V) (x : nat) (t dt : T) : Mthis unit :=
  (* system(x, m_dxdt1, t); *)
  xv ← load x; s ← get_this;
  d1 ← invoke system xv (m_dxdt1 s) t;
  set_this (with_dxdt1 d1 s);;
  (* scale_two_sum(m_x.begin(), m_x.end(), 1., x.begin(), dt, m_dxdt1.begin()); *)
  xv ← load x; s ← get_this;
  px ← lift (it_algebra.scale_two_sum (m_x s) lit_one xv dt (m_dxdt1 s));
  set_this (with_x px s);;
  (* system(m_x, m_dxdt2, t + dt); *)
  s ← get_this;
  d2 ← invoke system (m_x s) (m_dxdt2 s) (t_add t dt);
  set_this (with_dxdt2 d2 s);;
  (* scale_two_sum_accumulate(x.begin(), x.end(),
       dt * .5, m_dxdt1.begin(), dt * .5, m_dxdt2.begin()); *)
  xv ← load x; s ← get_this;
  xv' ← lift (it_algebra.scale_two_sum_accumulate xv
                (t_mul dt lit_half) (m_dxdt1 s) (t_mul dt lit_half) (m_dxdt2 s));
  store x xv';;
  (* ++m_steps; *)
  s ← get_this;
  set_this (with_steps (incr (m_steps s)) s).

(** The public operations of the class, to speak of sequences of calls on
    one instance. *)
Inductive op :=
| op_order_step
| op_adjust_size (reference : nat)
| op_steps
| op_do_step (system : System T V) (x : nat) (t dt : T).

Definition run_op (o : op) : Mthis unit :=
  match o with
  | op_order_step => s ← get_this; let _ := order_step s in mret ()
  | op_adjust_size reference => adjust_size reference
  | op_steps => s ← get_this; let _ := steps s in mret ()
  | op_do_step system x t dt => do_step system x t dt
  end.

Fixpoint run (os : list op) : Mthis unit :=
  match os with
  | [] => mret ()
  | o :: os' => run_op o;; run os'
  end.

Definition is_do_step (o : op) : bool :=
  match o with
  | op_do_step _ _ _ _ => true
  | _ => false
  end.

(** How many of the calls are calls of [do_step]. *)
Definition count_do_step (os : list op) : nat :=
  length (List.filter is_do_step os).

(** Every scratch buffer has length [n]. *)
Definition sized (n : nat) (s : stepper_improved_euler) : Prop :=
  length (m_dxdt1 s) = n ∧ length (m_dxdt2 s) = n ∧ length (m_x s) = n.
End Stepper.
End chainsaw.

Arguments solver.stepper_euler : clear implicits.
Arguments chainsaw.stepper_improved_euler : clear implicits.
Arguments chainsaw.op : clear implicits.

(** ** What the two class definitions declare *)

(** A copy operation is either declared [= delete], or not declared at all
    and then implicitly defined by the compiler as the member-wise copy (the
    members are a [State], taken to be copyable as the standard containers
    are, and for the Improved Euler stepper an [unsigned long]). *)
Inductive copy_operation := copy_deleted | copy_implicit.

Record class_decl := {
  static_constexpr_bools : list (string * bool);
  copy_constructor : copy_operation;
  copy_assignment : copy_operation
}.

(** [class stepper_euler]: a default constructor, [order_step], the two
    [do_step] overloads and the member [m_dxdt]; no static data member and
    no declaration of a copy operation. *)
Definition stepper_euler_class : class_decl := {|
  static_constexpr_bools := [];
  copy_constructor := copy_implicit;
  copy_assignment := copy_implicit
|}.

(** [class stepper_improved_euler]:
    [static constexpr bool is_adaptive_stepper = false;] and both copy
    operations [= delete]. *)
Definition stepper_improved_euler_class : class_decl := {|
  static_constexpr_bools := [("is_adaptive_stepper", false)];
  copy_constructor := copy_deleted;
  copy_assignment := copy_deleted
|}.

(** [C::name], when [C] declares such a member. *)
Fixpoint find_member (ds : list (string * bool)) (name : string) : option bool :=
  match ds with
  | [] => None
  | (n, b) :: ds' => if decide (n = name) then Some b else find_member ds' name
  end.
Definition static_member (c : class_decl) (name : string) : option bool :=
  find_member (static_constexpr_bools c) name.

(** Copying an instance is ill-formed: the program does not compile. *)
Definition copy_construct_rejected (c : class_decl) : bool :=
  match copy_constructor c with copy_deleted => true | copy_implicit => false end.
Definition copy_assign_rejected (c : class_decl) : bool :=
  match copy_assignment c with copy_deleted => true | copy_implicit => false end.
Definition non_copyable (c : class_decl) : bool :=
  copy_construct_rejected c && copy_assign_rejected c.

(** The copy constructor the compiler defines for [stepper_euler]. *)
Definition stepper_euler_copy {V} (other : solver.stepper_euler V) : solver.stepper_euler V :=
  solver.Stepper (solver.m_dxdt other).

(** Both classes have the member [is_adaptive_stepper], and it is false. *)
Definition both_declare_not_adaptive : Prop :=
  static_member stepper_euler_class "is_adaptive_stepper" = Some false ∧
  static_member stepper_improved_euler_class "is_adaptive_stepper" = Some false.

(** Both classes reject copies at compile time. *)
Definition both_non_copyable : Prop :=
  non_copyable stepper_euler_class = true ∧
  non_copyable stepper_improved_euler_class = true.

(** ** Instance: IEEE 754 binary64 ([double]) for both parameters *)

#[export] Instance double_numeric : Numeric float float := {|
  lit_one := 1%float;
  lit_half := 0.5%float;
  t_add := PrimFloat.add;
  t_mul := PrimFloat.mul;
  scale := PrimFloat.mul;
  v_add := PrimFloat.add;
  v_init := 0%float
|}.

(** ** Instance: exact rational arithmetic for both parameters *)

#[export] Instance exact_numeric : Numeric Q Q := {|
  lit_one := 1%Q;
  lit_half := 0.5%Q;
  t_add := Qplus;
  t_mul := Qmult;
  scale := Qmult;
  v_add := Qplus;
  v_init := 0%Q
|}.

(** The system of the scenarios: [dxdt[0] = -x[0]]. *)
Definition decay_with {T V} (neg : V → V) : System T V := λ x dxdt t,
  match x with
  | x0 :: _ => <[0 := neg x0]> dxdt
  | [] => dxdt
  end.
Definition decay : System float float := decay_with PrimFloat.opp.
Definition decay_exact : System Q Q := decay_with Qopp.

(** A system that fills the whole output buffer: [dxdt[i] = -x[i]]. *)
Definition decay_all : System float float := λ x dxdt t,
  (λ xi, (- xi)%float) <$> x.

(** ** The worlds of the scenarios *)

(** The caller owns one state object, [x = [1.0]], and for the overload with
    a precomputed derivative a second one, [dxdt = [-1.0]]. *)
Definition one_state : gmap nat (list float) := {[ 0 := [1%float] ]}.
Definition one_state_exact : gmap nat (list Q) := {[ 0 := [1%Q] ]}.
Definition two_states : gmap nat (list float) :=
  {[ 0 := [1%float]; 1 := [(-1)%float] ]}.

(** A forward Euler stepper whose buffer has the length of the state. *)
Definition euler_sized : solver.stepper_euler float := solver.Stepper [0%float].

(** A freshly constructed Improved Euler stepper over [std::vector<double>]
    and over [std::array<double, 1>]. *)
Definition heun_vector : chainsaw.stepper_improved_euler float :=
  @chainsaw.ctor float float double_numeric vector_traits.
Definition heun_array : chainsaw.stepper_improved_euler float :=
  @chainsaw.ctor float float double_numeric (array_traits 1).

(** The same stepper after [adjust_size(x)] on the one-element state. *)
Definition heun_sized : chainsaw.stepper_improved_euler float :=
  chainsaw.Stepper [0%float] [0%float] [0%float] 0.

(** A short session on one instance: two steps among the other calls. *)
Definition session : list (chainsaw.op float float) :=
  [ chainsaw.op_adjust_size 0;
    chainsaw.op_do_step decay 0 0%float 0.1%float;
    chainsaw.op_steps;
    chainsaw.op_do_step decay 0 0.1%float 0.1%float;
    chainsaw.op_order_step ].

(** As many steps as an [unsigned long] has values, after sizing. *)
Definition long_session : list (chainsaw.op float float) :=
  chainsaw.op_adjust_size 0
  :: replicate (N.to_nat chainsaw.ULONG_MODULUS)
       (chainsaw.op_do_step decay 0 0%float 0.1%float).

(** ** Driver loops *)

Section Drivers.
Context {T V : Type} {num : Numeric T V} {traits : StateTraits}.

(** [n] consecutive calls of the forward Euler [do_step] on the state [x],
    the time advanced by [dt] after each call. *)
Fixpoint euler_drive (system : System T V) (x : nat) (t dt : T) (n : nat)
    : M T V (solver.stepper_euler V) unit :=
  match n with
  | 0 => mret ()
  | S n' => solver.do_step system x t dt;; euler_drive system x (t_add t dt) dt n'
  end.

(** The same calls on an Improved Euler stepper, as a sequence of
    operations for [chainsaw.run]. *)
Fixpoint heun_drive (system : System T V) (x : nat) (t dt : T) (n : nat)
    : list (chainsaw.op T V) :=
  match n with
  | 0 => []
  | S n' => chainsaw.op_do_step system x t dt
            :: heun_drive system x (t_add t dt) dt n'
  end.

(** The state objects a sequence of operations steps. *)
Definition steps_object (k : nat) (o : chainsaw.op T V) : Prop :=
  match o with
  | chainsaw.op_do_step _ x _ _ => x = k
  | _ => False
  end.
End Drivers.

(** [q] to the power [n], for the growth of a state over [n] steps. *)
Fixpoint qpow (q : Q) (n : nat) : Q :=
  match n with
  | 0 => 1%Q
  | S n' => (q * qpow q n')%Q
  end.

(** The worlds of the exact scenarios: a one-element state [x = [x0]] and
    one-element scratch buffers. *)
Definition euler_exact_world (x0 d : Q) : world Q Q (solver.stepper_euler Q) :=
  World (solver.Stepper [d]) {[ 0 := [x0] ]} [].
Definition heun_exact_world (x0 a b c : Q)
    : world Q Q (chainsaw.stepper_improved_euler Q) :=
  World (chainsaw.Stepper [a] [b] [c] 0) {[ 0 := [x0] ]} [].

(** * Properties *)

Arguments it_algebra.increment : simpl never.
Arguments it_algebra.scale_two_sum : simpl never.
Arguments it_algebra.scale_two_sum_accumulate : simpl never.

(** Unfolds the primitive computations and the bind of [M], and reduces. *)
Ltac unfold_world :=
  unfold load, get_this, invoke, set_this, store, lift,
         mbind, M_bind, mret, M_ret;
  cbn.

(** ** The iterator algebra, index by index *)

Section AlgebraFacts.
Context {T V : Type} {num : Numeric T V}.

Lemma increment_defined (x dxdt : list V) (dt : T) :
  length dxdt = length x →
  it_algebra.increment x dxdt dt
  = Some (zip_with (λ xi di, v_add xi (scale dt di)) x dxdt).
Proof. intros Hlen. unfold it_algebra.increment. by rewrite decide_True. Qed.

Lemma scale_two_sum_defined (dest a b : list V) (cA cB : T) :
  length a = length dest → length b = length dest →
  it_algebra.scale_two_sum dest cA a cB b
  = Some (zip_with (λ ai bi, v_add (scale cA ai) (scale cB bi)) a b).
Proof. intros Ha Hb. unfold it_algebra.scale_two_sum. by rewrite decide_True. Qed.

Lemma scale_two_sum_accumulate_defined (dest a b : list V) (cA cB : T) :
  length a = length dest → length b = length dest →
  it_algebra.scale_two_sum_accumulate dest cA a cB b
  = Some (zip_with v_add dest
            (zip_with (λ ai bi, v_add (scale cA ai) (scale cB bi)) a b)).
Proof.
  intros Ha Hb. unfold it_algebra.scale_two_sum_accumulate. by rewrite decide_True.
Qed.

(** In equally long lists an index of one is an index of the other. *)
Lemma lookup_same_length {A B} (l : list A) (k : list B) i a :
  length k = length l → l !! i = Some a → ∃ b, k !! i = Some b.
Proof.
  intros Hlen Hi. apply lookup_lt_Some in Hi.
  apply lookup_lt_is_Some_2. lia.
Qed.

Lemma lookup_zip_with_both {A B C} (f : A → B → C) (l : list A) (k : list B) i a b :
  l !! i = Some a → k !! i = Some b → zip_with f l k !! i = Some (f a b).
Proof. intros Ha Hb. rewrite lookup_zip_with, Ha, Hb. done. Qed.
End AlgebraFacts.

(** ** Forward Euler *)

Section EulerFacts.
Context {T V : Type} {num : Numeric T V} {traits : StateTraits}.
Import solver.

(** C2. [do_step(system, x, t, dt)] of the forward Euler stepper, on a
    scratch buffer as long as the state: the system is invoked once, on
    [(x, t)], its output [dxdt] becomes the scratch buffer, and [x] is
    replaced in place by the state with [x[i] + dt * dxdt[i]] at every
    index [i]; the rest of the world is as before. *)
Theorem euler_do_step_spec (system : System T V) (x : nat) (xv : list V)
    (t dt : T) (w : world T V (stepper_euler V)) :
  objs w !! x = Some xv →
  length (m_dxdt (this w)) = length xv →
  keeps_size system →
  ∃ dxdt xv',
    dxdt = system xv (m_dxdt (this w)) t ∧
    length xv' = length xv ∧
    (∀ i xi, xv !! i = Some xi →
       ∃ di, dxdt !! i = Some di ∧ xv' !! i = Some (v_add xi (scale dt di))) ∧
    do_step system x t dt w
    = Some ((), World (Stepper dxdt) (<[x := xv']> (objs w)) (calls w ++ [(xv, t)])).
Proof.
  intros Hx Hlen Hsys.
  pose proof (Hsys xv (m_dxdt (this w)) t Hlen) as Hd.
  set (dxdt := system xv (m_dxdt (this w)) t) in *.
  exists dxdt, (zip_with (λ xi di, v_add xi (scale dt di)) xv dxdt).
  split; [done|]. split; [by rewrite length_zip_with_l_eq|]. split.
  - intros i xi Hi.
    destruct (lookup_same_length xv dxdt i xi Hd Hi) as [di Hdi].
    exists di. split; [done|].
    by apply (lookup_zip_with_both (λ a d, v_add a (scale dt d))).
  - unfold do_step, do_step_dxdt, load_dxdt. unfold_world. repeat (rewrite Hx; cbn).
    rewrite increment_defined by done. done.
Qed.
End EulerFacts.

Section EulerFrame.
Context {T V : Type} {num : Numeric T V} {traits : StateTraits}.
Import solver.

(** C8, amended. The overload [do_step(system, x, dxdt, t, dt)] with a
    precomputed derivative as long as the state completes; it does not
    invoke the system (the log of invocations is as before, and the outcome
    is the same for any other callable), it leaves the stepper and its
    scratch buffer as they were, and no object of the caller other than [x]
    changes: the derivative passed reads as before whenever it is not the
    object [x] itself. *)
Theorem euler_do_step_dxdt_frame (system : System T V) (x : nat)
    (dxdt : dxdt_ref) (xv dv : list V) (t dt : T)
    (w : world T V (stepper_euler V)) :
  objs w !! x = Some xv →
  deref dxdt w = Some dv →
  length dv = length xv →
  ∃ w',
    exec (do_step_dxdt system x dxdt t dt) w = Some w' ∧
    calls w' = calls w ∧
    this w' = this w ∧
    (∀ k, k ≠ x → objs w' !! k = objs w !! k) ∧
    (dxdt ≠ ByObj x → deref dxdt w' = Some dv) ∧
    (∀ system' : System T V,
       do_step_dxdt system' x dxdt t dt w = do_step_dxdt system x dxdt t dt w).
Proof.
  intros Hx Hd Hlen.
  exists (World (this w)
            (<[x := zip_with (λ xi di, v_add xi (scale dt di)) xv dv]> (objs w))
            (calls w)).
  assert (Hload : load_dxdt dxdt w = Some (dv, w)).
  { destruct dxdt as [k|]; revert Hd; unfold deref, load_dxdt; unfold_world.
    - destruct (objs w !! k); cbn; congruence.
    - congruence. }
  repeat split.
  - unfold exec, do_step_dxdt. unfold mbind at 1, M_bind at 1.
    unfold load at 1, lift at 1. rewrite Hx.
    unfold mbind at 1, M_bind at 1. rewrite Hload.
    unfold_world. by rewrite increment_defined.
  - intros k Hk. cbn. by rewrite lookup_insert_ne.
  - intros Hne. destruct dxdt as [k|]; revert Hd; unfold deref, load_dxdt; unfold_world.
    + rewrite lookup_insert_ne by congruence.
      destruct (objs w !! k); cbn; congruence.
    + done.
Qed.
End EulerFrame.

(** ** The systems of the scenarios keep the contract *)

Lemma decay_with_keeps_size {T V} (neg : V → V) :
  keeps_size (decay_with (T := T) neg).
Proof.
  intros x out t Hlen. unfold decay_with. destruct x as [|x0 x]; [done|].
  by rewrite length_insert.
Qed.

Lemma decay_keeps_size : keeps_size decay.
Proof. apply decay_with_keeps_size. Qed.

Lemma decay_all_keeps_size : keeps_size decay_all.
Proof. intros x out t _. unfold decay_all. by rewrite length_fmap. Qed.

Lemma decay_all_overwrites : overwrites decay_all.
Proof. by intros x out out' t _ _. Qed.

(** Scenario A, through C2: [x = [1.0]], [t = 0], [dt = 0.1]. *)
Lemma euler_do_step_spec_witness :
  ∃ dxdt xv',
    dxdt = decay [1%float] [0%float] 0%float ∧
    length xv' = 1 ∧
    (∀ i xi, [1%float] !! i = Some xi →
       ∃ di, dxdt !! i = Some di ∧ xv' !! i = Some (xi + 0.1 * di)%float) ∧
    solver.do_step decay 0 0%float 0.1%float (World euler_sized one_state [])
    = Some ((), World (solver.Stepper dxdt) (<[0 := xv']> one_state)
                  [([1%float], 0%float)]).
Proof.
  refine (euler_do_step_spec decay 0 [1%float] 0%float 0.1%float
            (World euler_sized one_state []) _ _ _).
  - reflexivity.
  - reflexivity.
  - exact decay_keeps_size.
Defined.

(** The precomputed derivative is the caller's second object. *)
Lemma euler_do_step_dxdt_frame_witness :
  ∃ w',
    exec (solver.do_step_dxdt decay 0 (solver.ByObj 1) 0%float 0.1%float)
      (World euler_sized two_states []) = Some w' ∧
    calls w' = [] ∧
    this w' = euler_sized ∧
    (∀ k, k ≠ 0 → objs w' !! k = two_states !! k) ∧
    (solver.ByObj 1 ≠ solver.ByObj 0 → solver.deref (solver.ByObj 1) w' = Some [(-1)%float]) ∧
    (∀ system' : System float float,
       solver.do_step_dxdt system' 0 (solver.ByObj 1) 0%float 0.1%float
         (World euler_sized two_states [])
       = solver.do_step_dxdt decay 0 (solver.ByObj 1) 0%float 0.1%float
           (World euler_sized two_states [])).
Proof.
  refine (euler_do_step_dxdt_frame decay 0 (solver.ByObj 1)
            [1%float] [(-1)%float] 0%float 0.1%float
            (World euler_sized two_states []) _ _ _).
  - reflexivity.
  - reflexivity.
  - reflexivity.
Defined.

(** ** What is fixed by the class definitions *)

(** C4. [order_step()] does not read the instance: whatever the state of the
    stepper, and so whatever was called on it before, it returns 1 for the
    forward Euler stepper and 1 for the Improved Euler stepper. *)
Theorem order_step_constant (V : Type) :
  (∀ s : solver.stepper_euler V, solver.order_step s = 1%N) ∧
  (∀ s : chainsaw.stepper_improved_euler V, chainsaw.order_step s = 1%N).
Proof. split; intros s; reflexivity. Qed.

(** [stepper_euler] has no member [is_adaptive_stepper]. *)
Lemma euler_declares_no_is_adaptive_stepper : ¬ both_declare_not_adaptive.
Proof. intros [Heuler _]. vm_compute in Heuler. discriminate. Qed.

(** C5, amended. [stepper_improved_euler::is_adaptive_stepper] is declared
    and is false; [stepper_euler] declares no member of that name (and no
    other static boolean member). *)
Theorem is_adaptive_stepper_declared :
  static_member stepper_improved_euler_class "is_adaptive_stepper" = Some false ∧
  static_member stepper_euler_class "is_adaptive_stepper" = None ∧
  (∀ name, static_member stepper_euler_class name = None).
Proof. repeat split. Qed.

(** [stepper_euler] deletes neither copy operation. *)
Lemma euler_is_copyable : ¬ both_non_copyable.
Proof. intros [Heuler _]. vm_compute in Heuler. discriminate. Qed.

(** C9, amended. Copy construction and copy assignment of a
    [stepper_improved_euler] are rejected at compile time (both are declared
    deleted).  [stepper_euler] declares neither, so the compiler defines
    both: a copy is accepted and is the member-wise copy of the instance. *)
Theorem copy_prohibition :
  copy_construct_rejected stepper_improved_euler_class = true ∧
  copy_assign_rejected stepper_improved_euler_class = true ∧
  copy_construct_rejected stepper_euler_class = false ∧
  copy_assign_rejected stepper_euler_class = false ∧
  (∀ V (s : solver.stepper_euler V), stepper_euler_copy s = s).
Proof. repeat split. intros V [d]. reflexivity. Qed.

(** ** Improved Euler *)

Section HeunFacts.
Context {T V : Type} {num : Numeric T V} {traits : StateTraits}.
Import chainsaw.

Implicit Types (w : world T V (stepper_improved_euler V)) (system : System T V).

(** The whole effect of one [do_step] on consistently sized buffers. *)
Lemma heun_do_step_defined system (x : nat) (xv : list V) (t dt : T) w :
  objs w !! x = Some xv →
  sized (length xv) (this w) →
  keeps_size system →
  let f1 := system xv (m_dxdt1 (this w)) t in
  let x_pred := zip_with (λ xi fi, v_add (scale lit_one xi) (scale dt fi)) xv f1 in
  let f2 := system x_pred (m_dxdt2 (this w)) (t_add t dt) in
  let h := t_mul dt lit_half in
  let xv' := zip_with v_add xv
               (zip_with (λ ai bi, v_add (scale h ai) (scale h bi)) f1 f2) in
  length f1 = length xv ∧ length x_pred = length xv ∧
  length f2 = length xv ∧ length xv' = length xv ∧
  do_step system x t dt w
  = Some ((), World (Stepper f1 f2 x_pred (incr (m_steps (this w))))
                (<[x := xv']> (objs w))
                (calls w ++ [(xv, t); (x_pred, t_add t dt)])).
Proof.
  intros Hx (H1 & H2 & Hm) Hsys f1 x_pred f2 h xv'.
  assert (Hf1 : length f1 = length xv) by (unfold f1; by apply Hsys).
  assert (Hp : length x_pred = length xv).
  { unfold x_pred. by rewrite length_zip_with_l_eq. }
  assert (Hf2 : length f2 = length xv).
  { unfold f2. rewrite <- Hp. apply Hsys. by rewrite Hp. }
  assert (Hx' : length xv' = length xv).
  { unfold xv'. rewrite length_zip_with_l_eq; [done|].
    rewrite length_zip_with_l_eq; congruence. }
  repeat split; try done.
  unfold do_step. unfold_world. repeat (rewrite Hx; cbn).
  rewrite scale_two_sum_defined by (fold f1; congruence).
  cbn. repeat (rewrite Hx; cbn).
  rewrite scale_two_sum_accumulate_defined by (fold f1 x_pred f2; congruence).
  cbn.
  by rewrite <- app_assoc.
Qed.

(** C1. [do_step(system, x, t, dt)] of the Improved Euler stepper on buffers
    as long as the state: the system is invoked first on [(x, t)], giving
    [f1]; the predicted state has [1*x[i] + dt*f1[i]] at every index [i]; the
    system is then invoked on the predicted state at [t + dt], giving [f2];
    finally [x] is replaced in place by the state with
    [x[i] + ((dt*0.5)*f1[i] + (dt*0.5)*f2[i])] at every index [i]. *)
Theorem heun_do_step_spec system (x : nat) (xv : list V) (t dt : T) w :
  objs w !! x = Some xv →
  sized (length xv) (this w) →
  keeps_size system →
  ∃ f1 x_pred f2 xv',
    f1 = system xv (m_dxdt1 (this w)) t ∧
    length x_pred = length xv ∧
    (∀ i xi, xv !! i = Some xi →
       ∃ f1i, f1 !! i = Some f1i ∧
         x_pred !! i = Some (v_add (scale lit_one xi) (scale dt f1i))) ∧
    f2 = system x_pred (m_dxdt2 (this w)) (t_add t dt) ∧
    length xv' = length xv ∧
    (∀ i xi, xv !! i = Some xi →
       ∃ f1i f2i, f1 !! i = Some f1i ∧ f2 !! i = Some f2i ∧
         xv' !! i = Some (v_add xi (v_add (scale (t_mul dt lit_half) f1i)
                                          (scale (t_mul dt lit_half) f2i)))) ∧
    do_step system x t dt w
    = Some ((), World (Stepper f1 f2 x_pred (incr (m_steps (this w))))
                  (<[x := xv']> (objs w))
                  (calls w ++ [(xv, t); (x_pred, t_add t dt)])).
Proof.
  intros Hx Hsized Hsys.
  destruct (heun_do_step_defined system x xv t dt w Hx Hsized Hsys)
    as (Hf1 & Hp & Hf2 & Hx' & Hstep).
  eexists _, _, _, _. split; [reflexivity|]. split; [exact Hp|].
  split; [|split; [reflexivity|]; split; [exact Hx'|]; split; [|exact Hstep]].
  - intros i xi Hi.
    destruct (lookup_same_length xv _ i xi Hf1 Hi) as [f1i Hf1i].
    exists f1i. split; [done|].
    by apply (lookup_zip_with_both (λ a f, v_add (scale lit_one a) (scale dt f))).
  - intros i xi Hi.
    destruct (lookup_same_length xv _ i xi Hf1 Hi) as [f1i Hf1i].
    destruct (lookup_same_length xv _ i xi Hf2 Hi) as [f2i Hf2i].
    exists f1i, f2i. split; [done|]. split; [done|].
    apply (lookup_zip_with_both v_add); [done|].
    by apply (lookup_zip_with_both
                (λ a b, v_add (scale (t_mul dt lit_half) a) (scale (t_mul dt lit_half) b))).
Qed.

(** [adjust_size] on an existing reference state. *)
Lemma heun_adjust_size_defined (reference : nat) (r : list V) w :
  objs w !! reference = Some r →
  adjust_size reference w
  = Some ((), if has_resize
              then World (Stepper (resize (length r) v_init (m_dxdt1 (this w)))
                                  (resize (length r) v_init (m_dxdt2 (this w)))
                                  (resize (length r) v_init (m_x (this w)))
                                  (m_steps (this w)))
                         (objs w) (calls w)
              else w).
Proof.
  intros Hr. unfold adjust_size. unfold_world. rewrite Hr.
  destruct has_resize; [done|]. by destruct w.
Qed.

(** C6. [adjust_size(reference)]: when the state type supports [resize], the
    two derivative buffers and the predicted-state buffer all get the length
    of [reference]; when it does not, nothing changes.  In both cases the
    caller's objects, the step counter and the log are left alone. *)
Theorem heun_adjust_size_spec (reference : nat) (r : list V) w :
  objs w !! reference = Some r →
  ∃ w',
    exec (adjust_size reference) w = Some w' ∧
    objs w' = objs w ∧ calls w' = calls w ∧
    m_steps (this w') = m_steps (this w) ∧
    (has_resize = true →
       length (m_dxdt1 (this w')) = length r ∧
       length (m_dxdt2 (this w')) = length r ∧
       length (m_x (this w')) = length r) ∧
    (has_resize = false → w' = w).
Proof.
  intros Hr. unfold exec. rewrite (heun_adjust_size_defined reference r w Hr).
  eexists. split; [reflexivity|]. cbn.
  destruct has_resize; cbn; repeat split; try done.
  all: by rewrite length_resize.
Qed.

(** *** The step counter *)

Lemma exec_run_cons (o : op T V) (os : list (op T V)) w :
  exec (run (o :: os)) w
  = match run_op o w with
    | Some (_, w1) => exec (run os) w1
    | None => None
    end.
Proof.
  unfold exec. cbn [run]. unfold mbind, M_bind.
  destruct (run_op o w) as [[[] w1]|]; reflexivity.
Qed.

Lemma incr_lt (n : N) : (incr n < ULONG_MODULUS)%N.
Proof. unfold incr. apply N.mod_lt. discriminate. Qed.

(** A completed [do_step] has incremented the counter once. *)
Lemma heun_do_step_counts system (x : nat) (t dt : T) w u w' :
  do_step system x t dt w = Some (u, w') →
  m_steps (this w') = incr (m_steps (this w)).
Proof.
  unfold do_step. unfold_world. intros Hstep.
  repeat case_match; simplify_eq; reflexivity.
Qed.

(** Every other operation leaves the counter alone. *)
Lemma heun_other_op_counts (o : op T V) w u w' :
  is_do_step o = false →
  run_op o w = Some (u, w') →
  m_steps (this w') = m_steps (this w).
Proof.
  destruct o; cbn; try discriminate; intros _.
  - unfold_world. intros Heq. by simplify_eq.
  - unfold adjust_size. unfold_world. intros Hadj.
    repeat case_match; simplify_eq; reflexivity.
  - unfold_world. intros Heq. by simplify_eq.
Qed.

Lemma count_do_step_cons (o : op T V) (os : list (op T V)) :
  count_do_step (o :: os)
  = if is_do_step o then S (count_do_step os) else count_do_step os.
Proof.
  unfold count_do_step. cbn [List.filter]. by destruct (is_do_step o).
Qed.

(** The counter after a sequence of calls: the number of [do_step]s among
    them, modulo the range of [unsigned long]. *)
Lemma heun_run_counts (os : list (op T V)) w w' :
  (m_steps (this w) < ULONG_MODULUS)%N →
  exec (run os) w = Some w' →
  m_steps (this w')
  = ((m_steps (this w) + N.of_nat (count_do_step os)) mod ULONG_MODULUS)%N.
Proof.
  revert w. induction os as [|o os IH]; intros w Hlt Hrun.
  - cbn in Hrun. injection Hrun as <-. cbn.
    rewrite N.add_0_r, N.mod_small; done.
  - rewrite exec_run_cons in Hrun.
    destruct (run_op o w) as [[u w1]|] eqn:Ho; [|done].
    rewrite count_do_step_cons.
    destruct (is_do_step o) eqn:Hkind.
    + destruct o; try discriminate. cbn in Ho.
      apply heun_do_step_counts in Ho.
      rewrite (IH w1) by (rewrite ?Ho; auto using incr_lt).
      rewrite Ho. unfold incr.
      rewrite N.Div0.add_mod_idemp_l.
      apply (f_equal (λ n, (n mod ULONG_MODULUS)%N)). lia.
    + apply heun_other_op_counts in Ho; [|done].
      rewrite (IH w1) by (rewrite ?Ho; auto).
      by rewrite Ho.
Qed.

(** Repeated steps on consistently sized buffers all complete. *)
Lemma heun_steps_complete (n : nat) system (x : nat) (xv : list V) (t dt : T) w :
  objs w !! x = Some xv →
  sized (length xv) (this w) →
  keeps_size system →
  ∃ w', exec (run (replicate n (op_do_step system x t dt))) w = Some w'.
Proof.
  intros Hx Hsized Hsys. revert w xv Hx Hsized.
  induction n as [|n IH]; intros w xv Hx Hsized.
  - by exists w.
  - cbn [replicate]. rewrite exec_run_cons. cbn [run_op].
    destruct (heun_do_step_defined system x xv t dt w Hx Hsized Hsys)
      as (Hf1 & Hp & Hf2 & Hx' & ->).
    eapply IH.
    + cbn. apply lookup_insert_eq.
    + repeat split; cbn; congruence.
Qed.

Lemma count_do_step_replicate (n : nat) system (x : nat) (t dt : T) :
  count_do_step (replicate n (op_do_step system x t dt)) = n.
Proof.
  induction n as [|n IH]; [done|].
  cbn [replicate]. rewrite count_do_step_cons. cbn. by rewrite IH.
Qed.

(** C3, amended. A freshly constructed instance reports 0 steps.  After any
    completed sequence of calls on an instance, [steps()] is the count before
    plus the number of [do_step] calls among them, modulo 2^64; as long as
    that sum stays below 2^64 it is exactly the sum, so each [do_step] adds
    exactly 1 and no other call changes the counter. *)
Theorem heun_steps_count (os : list (op T V)) w w' :
  (steps (this w) < ULONG_MODULUS)%N →
  exec (run os) w = Some w' →
  steps ctor = 0%N ∧
  steps (this w')
  = ((steps (this w) + N.of_nat (count_do_step os)) mod ULONG_MODULUS)%N ∧
  ((steps (this w) + N.of_nat (count_do_step os) < ULONG_MODULUS)%N →
   steps (this w') = (steps (this w) + N.of_nat (count_do_step os))%N).
Proof.
  intros Hlt Hrun. split; [reflexivity|].
  pose proof (heun_run_counts os w w' Hlt Hrun) as Hcount.
  split; [exact Hcount|].
  intros Hsmall. unfold steps. rewrite Hcount. by apply N.mod_small.
Qed.

(** C10. Two calls of [do_step] that differ only in what the three scratch
    buffers held before, with buffers as long as the state and a system that
    is a function of state and time only, both complete and end in the same
    world: the same final state, the same step counter, and also the same
    scratch contents and the same invocations of the system. *)
Theorem heun_scratch_independent system (x : nat) (xv a b c : list V)
    (t dt : T) w :
  objs w !! x = Some xv →
  sized (length xv) (this w) →
  length a = length xv → length b = length xv → length c = length xv →
  keeps_size system →
  overwrites system →
  ∃ w1 w2,
    exec (do_step system x t dt) w = Some w1 ∧
    exec (do_step system x t dt)
      (World (Stepper a b c (m_steps (this w))) (objs w) (calls w)) = Some w2 ∧
    objs w1 = objs w2 ∧
    steps (this w1) = steps (this w2) ∧
    w1 = w2.
Proof.
  intros Hx Hsized Ha Hb Hc Hsys Hover.
  destruct (heun_do_step_defined system x xv t dt w Hx Hsized Hsys)
    as (Hf1 & Hp & Hf2 & Hx' & Hstep).
  destruct (heun_do_step_defined system x xv t dt
              (World (Stepper a b c (m_steps (this w))) (objs w) (calls w))
              Hx (conj Ha (conj Hb Hc)) Hsys)
    as (_ & _ & _ & _ & Hstep').
  cbn in Hstep'. destruct Hsized as (H1 & H2 & _).
  rewrite (Hover xv a (m_dxdt1 (this w)) t Ha H1) in Hstep'.
  rewrite (Hover _ b (m_dxdt2 (this w)) (t_add t dt)) in Hstep' by congruence.
  unfold exec. rewrite Hstep, Hstep'. cbn.
  eexists _, _. repeat split; reflexivity.
Qed.
End HeunFacts.

(** ** The scenarios, in binary64 *)

Open Scope float_scope.

(** One Improved Euler step on [x = [1.0]] at [t = 0] with [dt = 0.1]. *)
Lemma heun_do_step_spec_witness :
  ∃ f1 x_pred f2 xv',
    f1 = decay [1] [0] 0 ∧
    length x_pred = 1%nat ∧
    (∀ i xi, [1] !! i = Some xi →
       ∃ f1i, f1 !! i = Some f1i ∧ x_pred !! i = Some (1 * xi + 0.1 * f1i)) ∧
    f2 = decay x_pred [0] (0 + 0.1) ∧
    length xv' = 1%nat ∧
    (∀ i xi, [1] !! i = Some xi →
       ∃ f1i f2i, f1 !! i = Some f1i ∧ f2 !! i = Some f2i ∧
         xv' !! i = Some (xi + (0.1 * 0.5 * f1i + 0.1 * 0.5 * f2i))) ∧
    chainsaw.do_step decay 0 0 0.1 (World heun_sized one_state [])
    = Some ((), World (chainsaw.Stepper f1 f2 x_pred (chainsaw.incr 0))
                  (<[0%nat := xv']> one_state)
                  [([1], 0); (x_pred, 0 + 0.1)]).
Proof.
  refine (heun_do_step_spec decay 0 [1] 0 0.1 (World heun_sized one_state []) _ _ _).
  - reflexivity.
  - repeat split.
  - exact decay_keeps_size.
Defined.

(** Sizing a fresh stepper over a vector, and over a fixed-size array. *)
Lemma heun_adjust_size_spec_witness :
  (∃ w',
     exec (chainsaw.adjust_size (traits := vector_traits) 0)
       (World heun_vector one_state []) = Some w' ∧
     objs w' = one_state ∧ calls w' = [] ∧
     chainsaw.m_steps (this w') = 0%N ∧
     (true = true →
        length (chainsaw.m_dxdt1 (this w')) = 1%nat ∧
        length (chainsaw.m_dxdt2 (this w')) = 1%nat ∧
        length (chainsaw.m_x (this w')) = 1%nat) ∧
     (true = false → w' = World heun_vector one_state [])) ∧
  (∃ w',
     exec (chainsaw.adjust_size (traits := array_traits 1) 0)
       (World heun_array one_state []) = Some w' ∧
     objs w' = one_state ∧ calls w' = [] ∧
     chainsaw.m_steps (this w') = 0%N ∧
     (false = true →
        length (chainsaw.m_dxdt1 (this w')) = 1%nat ∧
        length (chainsaw.m_dxdt2 (this w')) = 1%nat ∧
        length (chainsaw.m_x (this w')) = 1%nat) ∧
     (false = false → w' = World heun_array one_state [])).
Proof.
  split.
  - refine (heun_adjust_size_spec (traits := vector_traits) 0 [1]
              (World heun_vector one_state []) _).
    reflexivity.
  - refine (heun_adjust_size_spec (traits := array_traits 1) 0 [1]
              (World heun_array one_state []) _).
    reflexivity.
Defined.

(** Two steps among other calls on a fresh instance: [steps()] is 2. *)
Lemma heun_steps_count_witness :
  ∃ w',
    exec (chainsaw.run (traits := vector_traits) session)
      (World heun_vector one_state []) = Some w' ∧
    chainsaw.steps heun_vector = 0%N ∧
    chainsaw.steps (this w') = ((0 + 2) mod chainsaw.ULONG_MODULUS)%N ∧
    ((0 + 2 < chainsaw.ULONG_MODULUS)%N → chainsaw.steps (this w') = (0 + 2)%N).
Proof.
  eexists. split; [vm_compute; reflexivity|].
  refine (heun_steps_count (traits := vector_traits) session
            (World heun_vector one_state []) _ _ _).
  - reflexivity.
  - vm_compute. reflexivity.
Defined.

(** The same step from buffers holding zeros and from buffers holding
    leftovers. *)
Lemma heun_scratch_independent_witness :
  ∃ w1 w2,
    exec (chainsaw.do_step decay_all 0 0 0.1) (World heun_sized one_state []) = Some w1 ∧
    exec (chainsaw.do_step decay_all 0 0 0.1)
      (World (chainsaw.Stepper [7] [-3] [0.5] 0) one_state []) = Some w2 ∧
    objs w1 = objs w2 ∧
    chainsaw.steps (this w1) = chainsaw.steps (this w2) ∧
    w1 = w2.
Proof.
  refine (heun_scratch_independent decay_all 0 [1] [7] [-3] [0.5] 0 0.1
            (World heun_sized one_state []) _ _ _ _ _ _ _).
  - reflexivity.
  - repeat split.
  - reflexivity.
  - reflexivity.
  - reflexivity.
  - exact decay_all_keeps_size.
  - exact decay_all_overwrites.
Defined.

(** Sizing a fresh stepper on the one-element state. *)
Lemma heun_vector_sized :
  chainsaw.run_op (traits := vector_traits) (chainsaw.op_adjust_size 0)
    (World heun_vector one_state [])
  = Some ((), World heun_sized one_state []).
Proof. reflexivity. Qed.

(** Sizing and then [k] steps on a fresh instance: the run completes, and
    the counter is [k] modulo 2^64. *)
Lemma heun_sized_steps (k : nat) :
  ∃ w',
    exec (chainsaw.run (traits := vector_traits)
            (chainsaw.op_adjust_size 0
             :: replicate k (chainsaw.op_do_step decay 0 0 0.1)))
      (World heun_vector one_state []) = Some w' ∧
    chainsaw.steps (this w') = (N.of_nat k mod chainsaw.ULONG_MODULUS)%N.
Proof.
  destruct (heun_steps_complete (traits := vector_traits) k decay 0 [1] 0 0.1
              (World heun_sized one_state []))
    as [w' Hrun]; [reflexivity|repeat split|exact decay_keeps_size|].
  exists w'. rewrite exec_run_cons, heun_vector_sized. split; [exact Hrun|].
  unfold chainsaw.steps.
  rewrite (heun_run_counts _ (World heun_sized one_state []) w' eq_refl Hrun).
  by rewrite count_do_step_replicate.
Qed.

(** After sizing and 2^64 completed steps on a fresh instance the counter
    has wrapped around: [steps()] is 0, not 2^64. *)
Lemma heun_steps_wrap_around :
  ∃ w',
    exec (chainsaw.run (traits := vector_traits) long_session)
      (World heun_vector one_state []) = Some w' ∧
    N.of_nat (chainsaw.count_do_step long_session) = chainsaw.ULONG_MODULUS ∧
    chainsaw.steps (this w') = 0%N ∧
    chainsaw.steps (this w')
    ≠ N.of_nat (chainsaw.count_do_step long_session).
Proof.
  assert (Hcount : N.of_nat (chainsaw.count_do_step long_session)
                   = chainsaw.ULONG_MODULUS).
  { unfold long_session. rewrite count_do_step_cons. cbn [chainsaw.is_do_step].
    rewrite count_do_step_replicate. apply N2Nat.id. }
  destruct (heun_sized_steps (N.to_nat chainsaw.ULONG_MODULUS)) as (w' & Hrun & Hsteps).
  rewrite N2Nat.id, N.Div0.mod_same in Hsteps.
  exists w'. split; [exact Hrun|]. split; [exact Hcount|]. split; [exact Hsteps|].
  rewrite Hsteps, Hcount. discriminate.
Qed.

(** C7. Scenario B, whatever the scratch buffers held.  In double
    precision the first derivative is [-1.0], the predicted state [[0.9]],
    the second derivative [-0.9] and the final state [[0.905]], the value
    the accumulation forms as [1.0 + (0.05*(-1.0) + 0.05*(-0.9))].  In exact
    rational arithmetic the same four values come out, and the final one is
    [1.0 + 0.05*(-1.0) + 0.05*(-0.9)], which is [0.905]. *)
Theorem scenario_B (a b c : float) (qa qb qc : Q) (n : N) :
  (chainsaw.do_step decay 0 0 0.1
     (World (chainsaw.Stepper [a] [b] [c] n) one_state [])
   = Some ((), World (chainsaw.Stepper [-1] [-0.9] [0.9] (chainsaw.incr n))
                 (<[0%nat := [0.905]]> one_state)
                 [([1], 0); ([0.9], 0.1)]) ∧
   1 + (0.05 * (-1) + 0.05 * (-0.9)) = 0.905) ∧
  (∃ f1 x_pred f2 x1 : Q,
     chainsaw.do_step decay_exact 0 0%Q 0.1%Q
       (World (chainsaw.Stepper [qa] [qb] [qc] n) one_state_exact [])
     = Some ((), World (chainsaw.Stepper [f1] [f2] [x_pred] (chainsaw.incr n))
                   (<[0%nat := [x1]]> one_state_exact)
                   [([1%Q], 0%Q); ([x_pred], (0 + 0.1)%Q)]) ∧
     (f1 == -1.0)%Q ∧ (x_pred == 0.9)%Q ∧ (f2 == -0.9)%Q ∧
     (x1 == 1.0 + 0.05 * (-1.0) + 0.05 * (-0.9))%Q ∧ (x1 == 0.905)%Q).
Proof.
  split; [split; [|reflexivity]|].
  - destruct (heun_do_step_defined decay 0 [1] 0 0.1
                (World (chainsaw.Stepper [a] [b] [c] n) one_state []))
      as (_ & _ & _ & _ & ->); [reflexivity|repeat split|exact decay_keeps_size|].
    reflexivity.
  - destruct (heun_do_step_defined decay_exact 0
                [1%Q] 0%Q 0.1%Q
                (World (chainsaw.Stepper [qa] [qb] [qc] n) one_state_exact []))
      as (_ & _ & _ & _ & ->);
      [reflexivity|repeat split|apply decay_with_keeps_size|].
    eexists _, _, _, _. split; [reflexivity|].
    repeat split; reflexivity.
Qed.

(** Passed as its own derivative, the state is the object the step writes
    to: [do_step(system, x, x, t, dt)] on [x = [1.0]] with [dt = 0.1]
    completes, and the derivative passed, which read [[1.0]] before the
    call, reads [[1.1]] after it. *)
Lemma euler_do_step_dxdt_aliased :
  ∃ w' : world float float (solver.stepper_euler float),
    exec (solver.do_step_dxdt decay 0 (solver.ByObj 0) 0 0.1)
      (World euler_sized one_state []) = Some w' ∧
    solver.deref (T := float) (solver.ByObj 0) (World euler_sized one_state []) = Some [1] ∧
    solver.deref (T := float) (solver.ByObj 0) w' = Some [1.1] ∧
    solver.deref (T := float) (solver.ByObj 0) w'
    ≠ solver.deref (T := float) (solver.ByObj 0) (World euler_sized one_state []).
Proof.
  eexists. split; [vm_compute; reflexivity|].
  split; [reflexivity|]. split; [reflexivity|].
  intros Heq.
  apply (f_equal (λ o, match o with
                       | Some [f] => PrimFloat.eqb f 1
                       | _ => false
                       end)) in Heq.
  vm_compute in Heq. discriminate.
Qed.

Close Scope float_scope.

(** * Further properties *)

(** ** Forward Euler: sizes, scratch reuse and the two overloads *)

Section EulerMore.
Context {T V : Type} {num : Numeric T V}.
Import solver.

Implicit Types (w : world T V (stepper_euler V)) (system : System T V).

(** The whole effect of one forward Euler step. *)
Lemma euler_do_step_defined system (x : nat) (xv : list V) (t dt : T) w :
  objs w !! x = Some xv →
  length (m_dxdt (this w)) = length xv →
  keeps_size system →
  let d := system xv (m_dxdt (this w)) t in
  let xv' := zip_with (λ xi di, v_add xi (scale dt di)) xv d in
  length d = length xv ∧ length xv' = length xv ∧
  do_step system x t dt w
  = Some ((), World (Stepper d) (<[x := xv']> (objs w)) (calls w ++ [(xv, t)])).
Proof.
  intros Hx Hlen Hsys d xv'.
  assert (Hd : length d = length xv) by (unfold d; by apply Hsys).
  split; [done|]. split; [unfold xv'; by rewrite length_zip_with_l_eq|].
  unfold do_step, do_step_dxdt, load_dxdt. unfold_world. repeat (rewrite Hx; cbn).
  rewrite increment_defined by done. done.
Qed.

(** The overload with a precomputed derivative of the right length. *)
Lemma euler_do_step_dxdt_defined system (x : nat) (dxdt : dxdt_ref)
    (xv dv : list V) (t dt : T) w :
  objs w !! x = Some xv →
  deref dxdt w = Some dv →
  length dv = length xv →
  do_step_dxdt system x dxdt t dt w
  = Some ((), World (this w)
                (<[x := zip_with (λ xi di, v_add xi (scale dt di)) xv dv]> (objs w))
                (calls w)).
Proof.
  intros Hx Hd Hlen.
  assert (Hload : load_dxdt dxdt w = Some (dv, w)).
  { destruct dxdt as [k|]; revert Hd; unfold deref, load_dxdt; unfold_world.
    - destruct (objs w !! k); cbn; congruence.
    - congruence. }
  unfold do_step_dxdt. unfold mbind at 1, M_bind at 1.
  unfold load at 1, lift at 1. rewrite Hx.
  unfold mbind at 1, M_bind at 1. rewrite Hload.
  unfold_world. by rewrite increment_defined.
Qed.

(** X1. A driver loop of [n] forward Euler steps on a scratch buffer as long
    as the state completes, whatever [n]; afterwards the state and the
    scratch buffer still have their length, the system has been invoked
    exactly [n] more times, and no other object of the caller has changed. *)
Theorem euler_drive_invariants system (x : nat) (xv : list V) (t dt : T)
    (n : nat) w :
  objs w !! x = Some xv →
  length (m_dxdt (this w)) = length xv →
  keeps_size system →
  ∃ w' xv',
    exec (euler_drive system x t dt n) w = Some w' ∧
    objs w' !! x = Some xv' ∧
    length xv' = length xv ∧
    length (m_dxdt (this w')) = length xv ∧
    length (calls w') = length (calls w) + n ∧
    (∀ k, k ≠ x → objs w' !! k = objs w !! k).
Proof.
  intros Hx Hlen Hsys. revert w xv t Hx Hlen.
  induction n as [|n IH]; intros w xv t Hx Hlen.
  - exists w, xv. repeat split; try done.
  - destruct (euler_do_step_defined system x xv t dt w Hx Hlen Hsys)
      as (Hd & Hx' & Hstep).
    set (w1 := World (Stepper (system xv (m_dxdt (this w)) t))
                 (<[x := zip_with (λ xi di, v_add xi (scale dt di)) xv
                           (system xv (m_dxdt (this w)) t)]> (objs w))
                 (calls w ++ [(xv, t)])) in *.
    destruct (IH w1 _ (t_add t dt) (lookup_insert_eq _ _ _)) as (w' & xv' & Hrun & Hx2 & Hl2 & Hm2 & Hc2 & Hframe).
    { cbn. congruence. }
    exists w', xv'. split.
    + unfold exec in *. cbn [euler_drive]. unfold mbind, M_bind in *.
      rewrite Hstep. exact Hrun.
    + split; [done|]. split; [congruence|]. split; [congruence|]. split.
      * rewrite Hc2. cbn. rewrite length_app. cbn. lia.
      * intros k Hk. rewrite (Hframe k Hk). cbn. by rewrite lookup_insert_ne.
Qed.

(** X2. The four-argument [do_step] overwrites its scratch buffer before it
    reads it: with a system that is a function of state and time only, two
    calls that differ only in what the buffer held end in the same world. *)
Theorem euler_scratch_independent system (x : nat) (xv a : list V) (t dt : T) w :
  objs w !! x = Some xv →
  length (m_dxdt (this w)) = length xv →
  length a = length xv →
  keeps_size system →
  overwrites system →
  ∃ w',
    exec (do_step system x t dt) w = Some w' ∧
    exec (do_step system x t dt) (World (Stepper a) (objs w) (calls w)) = Some w'.
Proof.
  intros Hx Hlen Ha Hsys Hover.
  destruct (euler_do_step_defined system x xv t dt w Hx Hlen Hsys)
    as (_ & _ & Hstep).
  destruct (euler_do_step_defined system x xv t dt
              (World (Stepper a) (objs w) (calls w)) Hx Ha Hsys)
    as (_ & _ & Hstep').
  cbn in Hstep'. rewrite (Hover xv a (m_dxdt (this w)) t Ha Hlen) in Hstep'.
  unfold exec. rewrite Hstep, Hstep'. by eexists.
Qed.

(** X3. The two overloads agree: when the caller holds, in an object of its
    own, the derivative the system gives at [(x, t)], the overload with a
    precomputed derivative leaves every object of the caller exactly as the
    four-argument [do_step] does; only the latter invokes the system and
    keeps the derivative in the scratch buffer. *)
Theorem euler_overloads_agree system (x k : nat) (xv : list V) (t dt : T) w :
  objs w !! x = Some xv →
  length (m_dxdt (this w)) = length xv →
  keeps_size system →
  objs w !! k = Some (system xv (m_dxdt (this w)) t) →
  ∃ w1 w2,
    exec (do_step system x t dt) w = Some w1 ∧
    exec (do_step_dxdt system x (ByObj k) t dt) w = Some w2 ∧
    objs w1 = objs w2 ∧
    this w1 = Stepper (system xv (m_dxdt (this w)) t) ∧
    this w2 = this w ∧
    calls w1 = calls w ++ [(xv, t)] ∧
    calls w2 = calls w.
Proof.
  intros Hx Hlen Hsys Hk.
  destruct (euler_do_step_defined system x xv t dt w Hx Hlen Hsys)
    as (Hd & _ & Hstep).
  assert (Hderef : deref (ByObj k) w = Some (system xv (m_dxdt (this w)) t)).
  { unfold deref, load_dxdt. unfold_world. by rewrite Hk. }
  pose proof (euler_do_step_dxdt_defined system x (ByObj k) xv _ t dt w
                Hx Hderef Hd) as Hstep'.
  unfold exec. rewrite Hstep, Hstep'. eexists _, _. repeat split.
Qed.
End EulerMore.

(** ** Improved Euler: sizes, sessions and the driver protocol *)

Section HeunMore.
Context {T V : Type} {num : Numeric T V} {traits : StateTraits}.
Import chainsaw.

Implicit Types (w : world T V (stepper_improved_euler V)) (system : System T V).

(** A completed [do_step] has invoked the system twice and has written to
    no object of the caller but [x]. *)
Lemma heun_do_step_effects system (x : nat) (t dt : T) w u w' :
  do_step system x t dt w = Some (u, w') →
  length (calls w') = length (calls w) + 2 ∧
  (∀ k, k ≠ x → objs w' !! k = objs w !! k).
Proof.
  unfold do_step. unfold_world. intros Hstep.
  repeat case_match; simplify_eq; cbn. split.
  - rewrite !length_app. cbn. lia.
  - intros k Hk. by rewrite lookup_insert_ne.
Qed.

(** The other operations invoke nothing and write to no object. *)
Lemma heun_other_op_effects (o : op T V) w u w' :
  is_do_step o = false →
  run_op o w = Some (u, w') →
  calls w' = calls w ∧ objs w' = objs w.
Proof.
  destruct o; cbn; try discriminate; intros _.
  - unfold_world. intros Heq. by simplify_eq.
  - unfold adjust_size. unfold_world. intros Hadj.
    repeat case_match; simplify_eq; done.
  - unfold_world. intros Heq. by simplify_eq.
Qed.

(** X4. A driver loop of [n] Improved Euler steps on buffers as long as the
    state completes, whatever [n]; afterwards the state and all three
    scratch buffers still have their length: stepping never resizes. *)
Theorem heun_drive_invariants system (x : nat) (xv : list V) (t dt : T)
    (n : nat) w :
  objs w !! x = Some xv →
  sized (length xv) (this w) →
  keeps_size system →
  ∃ w' xv',
    exec (run (heun_drive system x t dt n)) w = Some w' ∧
    objs w' !! x = Some xv' ∧
    length xv' = length xv ∧
    sized (length xv) (this w').
Proof.
  intros Hx Hsized Hsys. revert w xv t Hx Hsized.
  induction n as [|n IH]; intros w xv t Hx Hsized.
  - by exists w, xv.
  - cbn [heun_drive]. rewrite exec_run_cons. cbn [run_op].
    destruct (heun_do_step_defined system x xv t dt w Hx Hsized Hsys)
      as (Hf1 & Hp & Hf2 & Hx' & ->).
    match goal with
    | |- context [exec _ ?w1] =>
        destruct (IH w1 _ (t_add t dt) (lookup_insert_eq _ _ _))
          as (w' & xv' & Hrun & Hx2 & Hl2 & Hs2)
    end.
    { repeat split; cbn; congruence. }
    exists w', xv'. split; [exact Hrun|]. split; [exact Hx2|].
    split; [congruence|]. by rewrite <- Hx'.
Qed.

(** X5. The driver protocol for a resizable state type: after
    [adjust_size(x)] a step on [x] completes, whatever sizes the scratch
    buffers had before; the buffers then have the length of [x] and the
    counter has advanced once. *)
Theorem heun_adjust_then_step system (x : nat) (xv : list V) (t dt : T) w :
  has_resize = true →
  objs w !! x = Some xv →
  keeps_size system →
  ∃ w',
    exec (adjust_size x;; do_step system x t dt) w = Some w' ∧
    sized (length xv) (this w') ∧
    steps (this w') = incr (steps (this w)) ∧
    (∃ xv', objs w' !! x = Some xv' ∧ length xv' = length xv).
Proof.
  intros Hres Hx Hsys.
  pose proof (heun_adjust_size_defined x xv w Hx) as Hadj.
  rewrite Hres in Hadj.
  set (w1 := World (Stepper (resize (length xv) v_init (m_dxdt1 (this w)))
                            (resize (length xv) v_init (m_dxdt2 (this w)))
                            (resize (length xv) v_init (m_x (this w)))
                            (m_steps (this w)))
               (objs w) (calls w)) in *.
  assert (Hsized : sized (length xv) (this w1)).
  { repeat split; cbn; apply length_resize. }
  destruct (heun_do_step_defined system x xv t dt w1 Hx Hsized Hsys)
    as (Hf1 & Hp & Hf2 & Hx' & Hstep).
  eexists. split.
  - unfold exec, mbind, M_bind. rewrite Hadj, Hstep. reflexivity.
  - cbn. split; [repeat split; cbn; assumption|]. split; [reflexivity|].
    eexists. split; [apply lookup_insert_eq|exact Hx'].
Qed.

(** X6. A freshly constructed stepper is ready for states of the length a
    default-constructed [State] has ([N] for [std::array<_, N>], and only the
    empty state for [std::vector]): the first step completes without
    [adjust_size], and [steps()] is then 1. *)
Theorem heun_fresh_ready system (x : nat) (xv : list V) (t dt : T)
    (os : gmap nat (list V)) (cs : list (list V * T)) :
  init_size = length xv →
  os !! x = Some xv →
  keeps_size system →
  ∃ w',
    exec (do_step system x t dt) (World ctor os cs) = Some w' ∧
    steps (this w') = 1%N ∧
    sized (length xv) (this w') ∧
    length (calls w') = length cs + 2.
Proof.
  intros Hinit Hx Hsys.
  assert (Hsized : sized (length xv) (this (World ctor os cs))).
  { repeat split; cbn; rewrite length_replicate; exact Hinit. }
  destruct (heun_do_step_defined system x xv t dt (World ctor os cs)
              Hx Hsized Hsys) as (Hf1 & Hp & Hf2 & Hx' & Hstep).
  eexists. split; [unfold exec; rewrite Hstep; reflexivity|].
  cbn. split; [reflexivity|]. split; [repeat split; cbn; assumption|].
  rewrite length_app. cbn. lia.
Qed.

(** X7. [adjust_size] on buffers that already have the length of the
    reference changes nothing, whether the state type can resize or not: a
    driver may call it before every step without disturbing the stepper. *)
Theorem heun_adjust_size_sized (reference : nat) (r : list V) w :
  objs w !! reference = Some r →
  sized (length r) (this w) →
  exec (adjust_size reference) w = Some w.
Proof.
  intros Hr (H1 & H2 & Hm). unfold exec.
  rewrite (heun_adjust_size_defined reference r w Hr). cbn.
  destruct has_resize; [|done].
  rewrite !resize_all_alt by done. by destruct w as [[? ? ? ?] ? ?].
Qed.

(** X8. [adjust_size] is idempotent: a second call with the same reference
    leaves the world the first call produced. *)
Theorem heun_adjust_size_idempotent (reference : nat) (r : list V) w :
  objs w !! reference = Some r →
  exec (adjust_size reference;; adjust_size reference) w
  = exec (adjust_size reference) w.
Proof.
  intros Hr. unfold exec, mbind, M_bind.
  pose proof (heun_adjust_size_defined reference r w Hr) as Hfirst.
  destruct has_resize eqn:Hres; rewrite Hfirst.
  - erewrite heun_adjust_size_defined by exact Hr. rewrite Hres. cbn.
    by rewrite !resize_idemp.
  - by rewrite Hfirst.
Qed.

(** X9. Over any completed sequence of calls on one instance the system is
    invoked exactly twice per [do_step] and by nothing else. *)
Theorem heun_run_invocations (os : list (op T V)) w w' :
  exec (run os) w = Some w' →
  length (calls w') = length (calls w) + 2 * count_do_step os.
Proof.
  revert w. induction os as [|o os IH]; intros w Hrun.
  - cbn in Hrun. injection Hrun as <-. cbn. lia.
  - rewrite exec_run_cons in Hrun.
    destruct (run_op o w) as [[u w1]|] eqn:Ho; [|done].
    rewrite count_do_step_cons, (IH w1 Hrun).
    destruct (is_do_step o) eqn:Hkind.
    + destruct o; try discriminate. cbn in Ho.
      apply heun_do_step_effects in Ho as [-> _]. lia.
    + apply heun_other_op_effects in Ho as [-> _]; [lia|done].
Qed.

(** X10. Over any completed sequence of calls, an object of the caller that
    is not the state of one of the [do_step] calls is left as it was. *)
Theorem heun_run_frame (os : list (op T V)) (k : nat) w w' :
  Forall (λ o, ¬ steps_object k o) os →
  exec (run os) w = Some w' →
  objs w' !! k = objs w !! k.
Proof.
  intros Hos. revert w. induction Hos as [|o os Ho Hos IH]; intros w Hrun.
  - cbn in Hrun. by injection Hrun as <-.
  - rewrite exec_run_cons in Hrun.
    destruct (run_op o w) as [[u w1]|] eqn:Hop; [|done].
    rewrite (IH w1 Hrun).
    destruct (is_do_step o) eqn:Hkind.
    + destruct o; try discriminate. cbn in Hop, Ho.
      apply heun_do_step_effects in Hop as [_ Hframe].
      apply Hframe. congruence.
    + apply heun_other_op_effects in Hop as [_ ->]; done.
Qed.
End HeunMore.

(** ** The two steppers side by side *)

Section Predictor.
Context {T V : Type} {num : Numeric T V}.

(** X11. The predictor of the Improved Euler step is the forward Euler step
    (the source's "using Euler's method"): when multiplying by the literal
    [1.] leaves a value as it is, the predicted state a Heun step leaves in
    its scratch buffer is the state a forward Euler step from the same
    state and scratch contents leaves in [x], and both keep the same first
    derivative. *)
Theorem heun_predictor_is_euler_step (system : System T V) (x : nat)
    (xv : list V) (t dt : T)
    (wh : world T V (chainsaw.stepper_improved_euler V))
    (we : world T V (solver.stepper_euler V)) :
  (∀ v : V, scale lit_one v = v) →
  objs wh !! x = Some xv →
  objs we !! x = Some xv →
  chainsaw.sized (length xv) (this wh) →
  solver.m_dxdt (this we) = chainsaw.m_dxdt1 (this wh) →
  keeps_size system →
  ∃ wh' we',
    exec (chainsaw.do_step system x t dt) wh = Some wh' ∧
    exec (solver.do_step system x t dt) we = Some we' ∧
    objs we' !! x = Some (chainsaw.m_x (this wh')) ∧
    solver.m_dxdt (this we') = chainsaw.m_dxdt1 (this wh').
Proof.
  intros Hone Hxh Hxe Hsized Hscratch Hsys.
  destruct (heun_do_step_defined system x xv t dt wh Hxh Hsized Hsys)
    as (_ & _ & _ & _ & Hheun).
  destruct Hsized as (H1 & _ & _).
  destruct (euler_do_step_defined system x xv t dt we Hxe) as (_ & _ & Heuler);
    [congruence|done|].
  unfold exec. rewrite Hheun, Heuler. eexists _, _.
  split; [reflexivity|]. split; [reflexivity|]. cbn. split.
  - rewrite lookup_insert_eq, Hscratch. f_equal.
    apply zip_with_ext; [|done|done]. intros a b. by rewrite Hone.
  - by rewrite Hscratch.
Qed.
End Predictor.

(** ** Exact arithmetic: the test equation [dx/dt = -x] *)

Lemma decay_exact_keeps_size : keeps_size decay_exact.
Proof. apply decay_with_keeps_size. Qed.

(** [n] forward Euler steps from any world holding a one-element state. *)
Lemma euler_decay_exact_from (n : nat) (x0 d t dt : Q)
    (w : world Q Q (solver.stepper_euler Q)) :
  objs w !! 0 = Some [x0] →
  this w = solver.Stepper [d] →
  ∃ w' q,
    exec (euler_drive decay_exact 0 t dt n) w = Some w' ∧
    objs w' !! 0 = Some [q] ∧
    Qeq q (qpow (1 - dt) n * x0).
Proof.
  revert x0 d t w. induction n as [|n IH]; intros x0 d t w Hx Hthis.
  - exists w, x0. split; [done|]. split; [done|]. cbn. ring.
  - destruct (euler_do_step_defined decay_exact 0 [x0] t dt w Hx)
      as (_ & _ & Hstep); [by rewrite Hthis|exact decay_exact_keeps_size|].
    rewrite Hthis in Hstep. cbn in Hstep.
    match type of Hstep with
    | _ = Some (_, ?w1) =>
        destruct (IH (x0 + dt * - x0)%Q (- x0)%Q (t + dt)%Q w1
                    (lookup_insert_eq _ _ _) eq_refl)
          as (w' & q & Hrun & Hq & Heq)
    end.
    exists w', q. split.
    + unfold exec in *. cbn [euler_drive]. unfold mbind, M_bind.
      rewrite Hstep. exact Hrun.
    + split; [exact Hq|]. rewrite Heq. cbn [qpow]. ring.
Qed.

(** X12. In exact arithmetic, [n] forward Euler steps of size [dt] on
    [dx/dt = -x] multiply the state by [(1 - dt)^n], whatever the time and
    the scratch contents at the start. *)
Theorem euler_decay_exact (n : nat) (x0 d t dt : Q) :
  ∃ w' q,
    exec (euler_drive decay_exact 0 t dt n) (euler_exact_world x0 d) = Some w' ∧
    objs w' !! 0 = Some [q] ∧
    Qeq q (qpow (1 - dt) n * x0).
Proof. by apply (euler_decay_exact_from n x0 d). Qed.

(** [n] Improved Euler steps from any world holding a one-element state. *)
Lemma heun_decay_exact_from (n : nat) (x0 a b c t dt : Q) (k : N)
    (w : world Q Q (chainsaw.stepper_improved_euler Q)) :
  objs w !! 0 = Some [x0] →
  this w = chainsaw.Stepper [a] [b] [c] k →
  ∃ w' q,
    exec (chainsaw.run (traits := vector_traits) (heun_drive decay_exact 0 t dt n)) w
    = Some w' ∧
    objs w' !! 0 = Some [q] ∧
    Qeq q (qpow (1 - dt + (1 # 2) * dt * dt) n * x0).
Proof.
  revert x0 a b c t k w. induction n as [|n IH]; intros x0 a b c t k w Hx Hthis.
  - exists w, x0. split; [done|]. split; [done|]. cbn. ring.
  - destruct (heun_do_step_defined decay_exact 0 [x0] t dt w Hx)
      as (_ & _ & _ & _ & Hstep);
      [by rewrite Hthis|exact decay_exact_keeps_size|].
    rewrite Hthis in Hstep. cbn in Hstep.
    match type of Hstep with
    | _ = Some (_, ?w1) =>
        edestruct (IH _ _ _ _ (t + dt)%Q _ w1 (lookup_insert_eq _ _ _) eq_refl)
          as (w' & q & Hrun & Hq & Heq)
    end.
    exists w', q. split.
    + cbn [heun_drive]. rewrite exec_run_cons. cbn [chainsaw.run_op].
      rewrite Hstep. exact Hrun.
    + split; [exact Hq|]. rewrite Heq. cbn [qpow]. ring.
Qed.

(** X13. In exact arithmetic, [n] Improved Euler steps of size [dt] on
    [dx/dt = -x] multiply the state by [(1 - dt + dt^2/2)^n], whatever the
    time and the scratch contents at the start. *)
Theorem heun_decay_exact (n : nat) (x0 a b c t dt : Q) :
  ∃ w' q,
    exec (chainsaw.run (traits := vector_traits) (heun_drive decay_exact 0 t dt n))
      (heun_exact_world x0 a b c) = Some w' ∧
    objs w' !! 0 = Some [q] ∧
    Qeq q (qpow (1 - dt + (1 # 2) * dt * dt) n * x0).
Proof. by apply (heun_decay_exact_from n x0 a b c t dt 0%N). Qed.

(** ** The further properties at the scenarios *)

(** In the rationals of the Standard Library [1 * v] is [v] itself. *)
Lemma exact_one_neutral (v : Q) : scale lit_one v = v.
Proof. destruct v as [a b]. cbn. unfold Qmult. cbn. by destruct a. Qed.

Open Scope float_scope.

(** Three forward Euler steps on [x = [1.0]]. *)
Lemma euler_drive_invariants_witness :
  ∃ w' xv',
    exec (euler_drive decay 0 0 0.1 3) (World euler_sized one_state []) = Some w' ∧
    objs w' !! 0%nat = Some xv' ∧
    length xv' = 1%nat ∧
    length (solver.m_dxdt (this w')) = 1%nat ∧
    length (calls w') = (0 + 3)%nat ∧
    (∀ k, k ≠ 0%nat → objs w' !! k = one_state !! k).
Proof.
  refine (euler_drive_invariants decay 0 [1] 0 0.1 3
            (World euler_sized one_state []) _ _ _).
  - reflexivity.
  - reflexivity.
  - exact decay_keeps_size.
Defined.

Lemma euler_scratch_independent_witness :
  ∃ w',
    exec (solver.do_step decay_all 0 0 0.1) (World euler_sized one_state [])
    = Some w' ∧
    exec (solver.do_step decay_all 0 0 0.1)
      (World (solver.Stepper [7]) one_state []) = Some w'.
Proof.
  refine (euler_scratch_independent decay_all 0 [1] [7] 0 0.1
            (World euler_sized one_state []) _ _ _ _ _).
  - reflexivity.
  - reflexivity.
  - reflexivity.
  - exact decay_all_keeps_size.
  - exact decay_all_overwrites.
Defined.

(** The caller's second object holds [-x], the derivative at [x = [1.0]]. *)
Lemma euler_overloads_agree_witness :
  ∃ w1 w2,
    exec (solver.do_step decay 0 0 0.1) (World euler_sized two_states []) = Some w1 ∧
    exec (solver.do_step_dxdt decay 0 (solver.ByObj 1) 0 0.1)
      (World euler_sized two_states []) = Some w2 ∧
    objs w1 = objs w2 ∧
    this w1 = solver.Stepper (decay [1] [0] 0) ∧
    this w2 = euler_sized ∧
    calls w1 = [] ++ [([1], 0)] ∧
    calls w2 = [].
Proof.
  refine (euler_overloads_agree decay 0 1 [1] 0 0.1
            (World euler_sized two_states []) _ _ _ _).
  - reflexivity.
  - reflexivity.
  - exact decay_keeps_size.
  - reflexivity.
Defined.

(** Three Improved Euler steps on [x = [1.0]]. *)
Lemma heun_drive_invariants_witness :
  ∃ w' xv',
    exec (chainsaw.run (traits := vector_traits) (heun_drive decay 0 0 0.1 3))
      (World heun_sized one_state []) = Some w' ∧
    objs w' !! 0%nat = Some xv' ∧
    length xv' = 1%nat ∧
    chainsaw.sized 1 (this w').
Proof.
  refine (heun_drive_invariants (traits := vector_traits) decay 0 [1] 0 0.1 3
            (World heun_sized one_state []) _ _ _).
  - reflexivity.
  - repeat split.
  - exact decay_keeps_size.
Defined.

(** A fresh stepper over a vector: sized, then stepped. *)
Lemma heun_adjust_then_step_witness :
  ∃ w',
    exec (chainsaw.adjust_size (traits := vector_traits) 0;;
          chainsaw.do_step decay 0 0 0.1)
      (World heun_vector one_state []) = Some w' ∧
    chainsaw.sized 1 (this w') ∧
    chainsaw.steps (this w') = chainsaw.incr (chainsaw.steps heun_vector) ∧
    (∃ xv', objs w' !! 0%nat = Some xv' ∧ length xv' = 1%nat).
Proof.
  refine (heun_adjust_then_step (traits := vector_traits) decay 0 [1] 0 0.1
            (World heun_vector one_state []) _ _ _).
  - reflexivity.
  - reflexivity.
  - exact decay_keeps_size.
Defined.

(** A fresh stepper over [std::array<double, 1>], stepped at once. *)
Lemma heun_fresh_ready_witness :
  ∃ w',
    exec (chainsaw.do_step decay 0 0 0.1) (World heun_array one_state []) = Some w' ∧
    chainsaw.steps (this w') = 1%N ∧
    chainsaw.sized 1 (this w') ∧
    length (calls w') = (0 + 2)%nat.
Proof.
  refine (heun_fresh_ready (traits := array_traits 1) decay 0 [1] 0 0.1
            one_state [] _ _ _).
  - reflexivity.
  - reflexivity.
  - exact decay_keeps_size.
Defined.

Lemma heun_adjust_size_sized_witness :
  exec (chainsaw.adjust_size (traits := vector_traits) 0)
    (World heun_sized one_state [])
  = Some (World heun_sized one_state []).
Proof.
  refine (heun_adjust_size_sized (traits := vector_traits) 0 [1]
            (World heun_sized one_state []) _ _).
  - reflexivity.
  - repeat split.
Defined.

Lemma heun_adjust_size_idempotent_witness :
  exec (chainsaw.adjust_size (traits := vector_traits) 0;;
        chainsaw.adjust_size (traits := vector_traits) 0)
    (World heun_vector one_state [])
  = exec (chainsaw.adjust_size (traits := vector_traits) 0)
      (World heun_vector one_state []).
Proof.
  refine (heun_adjust_size_idempotent (traits := vector_traits) 0 [1]
            (World heun_vector one_state []) _).
  reflexivity.
Defined.

(** The session of two steps: four invocations of the system. *)
Lemma heun_run_invocations_witness :
  ∃ w',
    exec (chainsaw.run (traits := vector_traits) session)
      (World heun_vector one_state []) = Some w' ∧
    length (calls w') = (0 + 2 * chainsaw.count_do_step session)%nat.
Proof.
  eexists. split; [vm_compute; reflexivity|].
  refine (heun_run_invocations (traits := vector_traits) session
            (World heun_vector one_state []) _ _).
  vm_compute. reflexivity.
Defined.

(** The session steps object 0 only: object 1 is as before. *)
Lemma heun_run_frame_witness :
  ∃ w',
    exec (chainsaw.run (traits := vector_traits) session)
      (World heun_vector two_states []) = Some w' ∧
    objs w' !! 1%nat = two_states !! 1%nat.
Proof.
  eexists. split; [vm_compute; reflexivity|].
  refine (heun_run_frame (traits := vector_traits) session 1
            (World heun_vector two_states []) _ _ _).
  - repeat constructor; cbn; intros Heq; discriminate || exact Heq.
  - vm_compute. reflexivity.
Defined.

Close Scope float_scope.

(** One step of each stepper from [x = [1]] in exact arithmetic. *)
Lemma heun_predictor_is_euler_step_witness :
  ∃ wh' we',
    exec (chainsaw.do_step decay_exact 0 0%Q 0.1%Q) (heun_exact_world 1 0 0 0)
    = Some wh' ∧
    exec (solver.do_step decay_exact 0 0%Q 0.1%Q) (euler_exact_world 1 0)
    = Some we' ∧
    objs we' !! 0 = Some (chainsaw.m_x (this wh')) ∧
    solver.m_dxdt (this we') = chainsaw.m_dxdt1 (this wh').
Proof.
  refine (heun_predictor_is_euler_step decay_exact 0 [1%Q] 0%Q 0.1%Q
            (heun_exact_world 1 0 0 0) (euler_exact_world 1 0) _ _ _ _ _ _).
  - exact exact_one_neutral.
  - reflexivity.
  - reflexivity.
  - repeat split.
  - reflexivity.
  - exact decay_exact_keeps_size.
Defined.

(** ** Exact arithmetic: the computed solution of [dx/dt = -x] decays *)

(** A power of a factor between 0 and 1 is between 0 and 1. *)
Lemma qpow_unit_interval (r : Q) (n : nat) :
  (0 <= r)%Q → (r <= 1)%Q → (0 <= qpow r n)%Q ∧ (qpow r n <= 1)%Q.
Proof.
  intros H0 H1. induction n as [|n [IH0 IH1]]; cbn [qpow].
  - split; [discriminate|apply Qle_refl].
  - split; [by apply Qmult_le_0_compat|].
    apply Qle_trans with (1 * qpow r n)%Q.
    + by apply Qmult_le_compat_r.
    + by rewrite Qmult_1_l.
Qed.

(** A state scaled by a factor between 0 and 1 stays between 0 and itself. *)
Lemma scaled_unit_interval (f x0 q : Q) :
  (0 <= f)%Q → (f <= 1)%Q → (0 <= x0)%Q → Qeq q (f * x0) →
  (0 <= q)%Q ∧ (q <= x0)%Q.
Proof.
  intros H0 H1 Hx Hq. rewrite Hq. split.
  - by apply Qmult_le_0_compat.
  - apply Qle_trans with (1 * x0)%Q.
    + by apply Qmult_le_compat_r.
    + rewrite Qmult_1_l. apply Qle_refl.
Qed.

(** X14. In exact arithmetic, with a step size between 0 and 1 and a
    non-negative initial state, the state after any number of forward Euler
    steps on [dx/dt = -x] is between 0 and the initial state: the computed
    solution decays and does not change sign. *)
Theorem euler_decay_bounded (n : nat) (x0 d t dt : Q) :
  (0 <= dt)%Q → (dt <= 1)%Q → (0 <= x0)%Q →
  ∃ w' q,
    exec (euler_drive decay_exact 0 t dt n) (euler_exact_world x0 d) = Some w' ∧
    objs w' !! 0 = Some [q] ∧
    (0 <= q)%Q ∧ (q <= x0)%Q.
Proof.
  intros Hdt0 Hdt1 Hx0.
  destruct (euler_decay_exact_from n x0 d t dt (euler_exact_world x0 d))
    as (w' & q & Hrun & Hq & Heq); [done|done|].
  exists w', q. split; [exact Hrun|]. split; [exact Hq|].
  assert (Hr0 : (0 <= 1 - dt)%Q) by lra.
  assert (Hr1 : (1 - dt <= 1)%Q) by lra.
  destruct (qpow_unit_interval (1 - dt) n Hr0 Hr1) as [Hp0 Hp1].
  exact (scaled_unit_interval _ x0 q Hp0 Hp1 Hx0 Heq).
Qed.

(** X15. The same for Improved Euler, for every step size between 0 and 2. *)
Theorem heun_decay_bounded (n : nat) (x0 a b c t dt : Q) :
  (0 <= dt)%Q → (dt <= 2)%Q → (0 <= x0)%Q →
  ∃ w' q,
    exec (chainsaw.run (traits := vector_traits) (heun_drive decay_exact 0 t dt n))
      (heun_exact_world x0 a b c) = Some w' ∧
    objs w' !! 0 = Some [q] ∧
    (0 <= q)%Q ∧ (q <= x0)%Q.
Proof.
  intros Hdt0 Hdt2 Hx0.
  destruct (heun_decay_exact_from n x0 a b c t dt 0%N (heun_exact_world x0 a b c))
    as (w' & q & Hrun & Hq & Heq); [done|done|].
  exists w', q. split; [exact Hrun|]. split; [exact Hq|].
  assert (Hr0 : (0 <= 1 - dt + (1 # 2) * dt * dt)%Q) by nra.
  assert (Hr1 : (1 - dt + (1 # 2) * dt * dt <= 1)%Q) by nra.
  destruct (qpow_unit_interval _ n Hr0 Hr1) as [Hp0 Hp1].
  exact (scaled_unit_interval _ x0 q Hp0 Hp1 Hx0 Heq).
Qed.

Lemma euler_decay_bounded_witness :
  ∃ w' q,
    exec (euler_drive decay_exact 0 0%Q 0.1%Q 10) (euler_exact_world 1 0) = Some w' ∧
    objs w' !! 0 = Some [q] ∧
    (0 <= q)%Q ∧ (q <= 1)%Q.
Proof.
  refine (euler_decay_bounded 10 1 0 0 0.1 _ _ _); discriminate.
Defined.

Lemma heun_decay_bounded_witness :
  ∃ w' q,
    exec (chainsaw.run (traits := vector_traits)
            (heun_drive decay_exact 0 0%Q 0.1%Q 10))
      (heun_exact_world 1 0 0 0) = Some w' ∧
    objs w' !! 0 = Some [q] ∧
    (0 <= q)%Q ∧ (q <= 1)%Q.
Proof.
  refine (heun_decay_bounded 10 1 0 0 0 0 0.1 _ _ _); discriminate.
Defined.
